(** * GTFS route shapes: the per-route geometry reduction of
      [GenerateSimpleRouteShapes.py]

    The script loads three GTFS tables, joins them, and for each route
    picks the shape with the most points, merges the other shapes of the
    route into it outside a small buffer, and simplifies the result.

    The tables are modelled as lists of records (a pandas frame is an
    ordered collection of rows), a Python [set] as the duplicate-free list
    of its elements in iteration order, and the shapely geometry calls as
    an interface ([Shapely]) whose operations the script only composes.
    Coordinates and tolerances are rationals: the decimal literals of the
    input files and of the script.

    Line 36 of the script lacks the comma between the two arguments of
    [pd.read_csv]; the call is read here as the one on line 34. *)

From Stdlib Require Import List String ZArith QArith Bool Arith Lia Sorted.
Import ListNotations.

Set Implicit Arguments.

#[local] Open Scope string_scope.
#[local] Open Scope list_scope.
#[local] Open Scope nat_scope.

(** ** The GTFS tables *)

Definition RouteId := string.
Definition ShapeId := string.

(** A row of [shapes.txt]. A cell that is empty in the file is a missing
    value in the frame; only the sequence column is ever counted, so it is
    the one column modelled with [option]. *)
Record ShapeRow : Type := mkShapeRow {
  shape_id : ShapeId;
  shape_pt_lat : Q;
  shape_pt_lon : Q;
  shape_pt_sequence : option Z
}.

(** A row of [routes.txt], restricted to the columns of [usecols]. *)
Record RouteRow : Type := mkRouteRow {
  route_id : RouteId;
  agency_id : string;
  route_short_name : string;
  route_long_name : string
}.

(** A row of [trips.txt], restricted to the columns of [usecols]. *)
Record TripRow : Type := mkTripRow {
  trip_route_id : RouteId;
  trip_shape_id : ShapeId
}.

(** A point of a polyline: (longitude, latitude), the order of the [zip]. *)
Definition Point : Type := (Q * Q)%type.

(** ** Selecting rows of one shape: [shapes[shapes['shape_id'] == id]] *)

Definition rows_of (shapes : list ShapeRow) (id : ShapeId) : list ShapeRow :=
  filter (fun r => String.eqb (shape_id r) id) shapes.

Definition is_some {A : Type} (o : option A) : bool :=
  match o with Some _ => true | None => false end.

(** [Series.count()]: the number of cells that are not missing. *)
Definition count {A : Type} (col : list (option A)) : nat :=
  List.length (filter (@is_some A) col).

(** [shapes[shapes['shape_id'] == id]['shape_pt_sequence'].count()] *)
Definition pt_count (shapes : list ShapeRow) (id : ShapeId) : nat :=
  count (map shape_pt_sequence (rows_of shapes id)).

(** [zip(rows['shape_pt_lon'].tolist(), rows['shape_pt_lat'].tolist())] *)
Definition coords (shapes : list ShapeRow) (id : ShapeId) : list Point :=
  combine (map shape_pt_lon (rows_of shapes id))
          (map shape_pt_lat (rows_of shapes id)).


(** The rows of a shape whose sequence cell is missing. *)
Definition null_sequence_rows (shapes : list ShapeRow) (id : ShapeId) : nat :=
  List.length (filter (fun r => negb (is_some (shape_pt_sequence r)))
                 (rows_of shapes id)).



(** ** Representative selection (lines 62-79)

    [longest] starts at the element popped from the set (and put back),
    [longest_pt_num] at its count; the loop over the set replaces both when
    a shape has strictly more counted points. *)

Definition select_step (cnt : ShapeId -> nat) (st : ShapeId * nat)
    (id : ShapeId) : ShapeId * nat :=
  if snd st <? cnt id then (id, cnt id) else st.

Definition select_longest (cnt : ShapeId -> nat) (first : ShapeId)
    (ids : list ShapeId) : ShapeId :=
  fst (fold_left (select_step cnt) ids (first, cnt first)).

(** [shape_ids.pop()] on the set in iteration order [ids]: the popped
    element is the first one met; an empty set raises [KeyError]. *)
Definition pop (ids : list ShapeId) : option ShapeId :=
  match ids with
  | [] => None
  | first :: _ => Some first
  end.

Definition representative (shapes : list ShapeRow) (ids : list ShapeId)
  : option ShapeId :=
  match pop ids with
  | None => None
  | Some first => Some (select_longest (pt_count shapes) first ids)
  end.

(** ** Geometries

    The script only ever holds lines: a [LineString] built from a list of
    coordinate pairs, or what [union] returns for lines, a
    [MultiLineString]. *)

Inductive Geometry : Type :=
| LineString (points : list Point)
| MultiLineString (lines : list (list Point)).

(** The line parts of a geometry. *)
Definition parts (g : Geometry) : list (list Point) :=
  match g with
  | LineString points => [points]
  | MultiLineString lines => lines
  end.

(** The two ends of a line; [None] for a line without points. *)
Definition ends (line : list Point) : option (Point * Point) :=
  match line with
  | [] => None
  | a :: rest => Some (a, last rest a)
  end.

(** The shapely calls of the overlap reduction: [g.buffer(r)],
    [g.within(area)], [g.difference(area)] and [g.union(h)]. A buffer is a
    polygon; nothing but [within] and [difference] ever looks at it, so its
    type is left to the implementation. *)
Class Shapely : Type := {
  Region : Type;
  buffer : Geometry -> Q -> Region;
  within : Geometry -> Region -> bool;
  difference : Geometry -> Region -> Geometry;
  union : Geometry -> Geometry -> Geometry
}.

(** ** The simplifier: [g.simplify(tolerance, preserve_topology=False)]

    The script calls shapely's Douglas-Peucker simplification (line 7 names
    the algorithm); its code is not part of the script. *)

Section DouglasPeucker.

(** [dist2 a b p]: the squared distance of [p] to the segment from [a]
    to [b]. *)
Variable dist2 : Point -> Point -> Point -> Q.
(** The squared tolerance. *)
Variable tol2 : Q.

(** Modelled from the spec: the search for the farthest point of the
    standard recursive line simplification, which the script takes from
    shapely. It returns the first point of [p :: ps] at which [d] is
    maximal, with the points before and after it. *)
Fixpoint split_max (d : Point -> Q) (p : Point) (ps : list Point)
  : list Point * Point * list Point :=
  match ps with
  | [] => ([], p, [])
  | q :: qs =>
      let '(before, m, after) := split_max d q qs in
      if Qle_bool (d m) (d p) then ([], p, ps)
      else (p :: before, m, after)
  end.

(** Modelled from the spec: the standard recursive line simplification,
    which the script takes from shapely. Between the ends [a] and [b] of a
    section, no interior point is kept when the farthest one lies within
    the tolerance of the segment from [a] to [b]; otherwise that point is
    kept and the two sections it separates are simplified. The recursion is
    on sections strictly shorter than [mid]; [fuel] bounds its depth and
    [List.length mid] is always enough ([dp_section_fuel]). *)
Fixpoint dp_section (fuel : nat) (a : Point) (mid : list Point) (b : Point)
  : list Point :=
  match fuel, mid with
  | _, [] => []
  | O, _ :: _ => mid
  | S n, p :: ps =>
      let '(before, m, after) := split_max (dist2 a b) p ps in
      if Qle_bool (dist2 a b m) tol2 then []
      else dp_section n a before m ++ m :: dp_section n m after b
  end.

(** Modelled from the spec: the simplification of one line, missing from
    the script as above. The two ends are always kept. *)
Definition simplify_line (points : list Point) : list Point :=
  match points with
  | a :: (_ :: _) as rest =>
      let mid := removelast rest in
      let b := last rest a in
      a :: dp_section (List.length mid) a mid b ++ [b]
  | _ => points
  end.

(** Modelled from the spec: the simplification of a geometry, missing from
    the script as above, simplifies each of its parts. *)
Definition simplify_with (g : Geometry) : Geometry :=
  match g with
  | LineString points => LineString (simplify_line points)
  | MultiLineString lines => MultiLineString (map simplify_line lines)
  end.

End DouglasPeucker.

Definition Qsquare (x : Q) : Q := (x * x)%Q.

Definition point_dist2 (p q : Point) : Q :=
  (Qsquare (fst p - fst q) + Qsquare (snd p - snd q))%Q.

(** Modelled from the spec: the distance of a point to the line between
    two others, missing from the script as above. It is the squared
    distance of [p] to the segment from [a] to [b]: to the nearer end when
    the projection of [p] falls outside the segment, to the supporting line
    otherwise. Squares keep the comparison with the tolerance rational. *)
Definition segment_dist2 (a b p : Point) : Q :=
  let dx := (fst b - fst a)%Q in
  let dy := (snd b - snd a)%Q in
  let len2 := (Qsquare dx + Qsquare dy)%Q in
  if Qeq_bool len2 0 then point_dist2 p a
  else
    let r := ((fst p - fst a) * dx + (snd p - snd a) * dy)%Q in
    if Qle_bool r 0 then point_dist2 p a
    else if Qle_bool len2 r then point_dist2 p b
    else
      let s := ((fst p - fst a) * dy - (snd p - snd a) * dx)%Q in
      (Qsquare s / len2)%Q.

(** Modelled from the spec: [g.simplify(tolerance, preserve_topology=False)],
    missing from the script as above. *)
Definition simplify (g : Geometry) (tolerance : Q) : Geometry :=
  simplify_with segment_dist2 (Qsquare tolerance) g.

(** ** The per-route construction (lines 80-111) *)

Definition buffer_radius : Q := 1 # 10000.
Definition tolerance : Q := 5 # 100000.

Section RouteShape.

Context {shapely : Shapely}.
Variable shapes : list ShapeRow.

(** One turn of the loop of lines 95-107 on the pair
    ([multiline], [area]). *)
Definition reduce_step (st : Geometry * Region) (id : ShapeId)
  : Geometry * Region :=
  let '(multiline, area) := st in
  let this_shape := LineString (coords shapes id) in
  if negb (within this_shape area) then
    let new_part := difference this_shape area in
    let multiline := union multiline new_part in
    (multiline, buffer multiline buffer_radius)
  else (multiline, area).

(** Lines 82-89: the longest shape and its buffer. *)
Definition reduce_init (longest : ShapeId) : Geometry * Region :=
  let multiline := LineString (coords shapes longest) in
  (multiline, buffer multiline buffer_radius).

(** The loop over [shorter_shape_ids], in their iteration order. *)
Definition overlap_reduce (longest : ShapeId) (shorter : list ShapeId)
  : Geometry * Region :=
  fold_left reduce_step shorter (reduce_init longest).

(** The body of the route loop for the set [shape_ids]; [None] is the
    [KeyError] of [pop] on an empty set. *)
Definition route_shape (shape_ids : list ShapeId) : option Geometry :=
  match representative shapes shape_ids with
  | None => None
  | Some longest =>
      let shorter_shape_ids := remove string_dec longest shape_ids in
      let multiline := fst (overlap_reduce longest shorter_shape_ids) in
      Some (simplify multiline tolerance)
  end.

End RouteShape.

(** ** The joins (lines 38-52) and the route loop (lines 57-116) *)

(** Rows kept by [drop_duplicates] and values kept by [unique]: the first
    occurrence of each, in order; [seen] holds what was met so far. *)
Fixpoint keep_first {A : Type} (eqb : A -> A -> bool) (seen l : list A)
  : list A :=
  match l with
  | [] => []
  | x :: xs =>
      if existsb (eqb x) seen then keep_first eqb seen xs
      else x :: keep_first eqb (x :: seen) xs
  end.

Definition drop_duplicates {A : Type} (eqb : A -> A -> bool) (l : list A)
  : list A :=
  keep_first eqb [] l.

Definition unique (l : list string) : list string :=
  keep_first String.eqb [] l.

Definition trip_eqb (t u : TripRow) : bool :=
  String.eqb (trip_route_id t) (trip_route_id u)
  && String.eqb (trip_shape_id t) (trip_shape_id u).

Definition route_eqb (r s : RouteRow) : bool :=
  String.eqb (route_id r) (route_id s)
  && String.eqb (agency_id r) (agency_id s)
  && String.eqb (route_short_name r) (route_short_name s)
  && String.eqb (route_long_name r) (route_long_name s).

Definition sequence_eqb (a b : option Z) : bool :=
  match a, b with
  | None, None => true
  | Some x, Some y => Z.eqb x y
  | _, _ => false
  end.

Definition shape_eqb (r s : ShapeRow) : bool :=
  String.eqb (shape_id r) (shape_id s)
  && Qeq_bool (shape_pt_lat r) (shape_pt_lat s)
  && Qeq_bool (shape_pt_lon r) (shape_pt_lon s)
  && sequence_eqb (shape_pt_sequence r) (shape_pt_sequence s).

(** A row of [routes_trips_shapes]: the columns of the route and of the
    shape point; the shape id joined on is the one of the shape row. *)
Definition JoinedRow : Type := (RouteRow * ShapeRow)%type.

Definition joined_eqb (x y : JoinedRow) : bool :=
  route_eqb (fst x) (fst y) && shape_eqb (snd x) (snd y).

(** [pd.merge(routes, trips, on='route_id', how='inner')] *)
Definition merge_routes_trips (routes : list RouteRow) (trips : list TripRow)
  : list (RouteRow * ShapeId) :=
  flat_map (fun r =>
    map (fun t => (r, trip_shape_id t))
        (filter (fun t => String.eqb (trip_route_id t) (route_id r)) trips))
    routes.

(** [pd.merge(routes_trips, shapes, on='shape_id', how='inner')] *)
Definition merge_shapes (routes_trips : list (RouteRow * ShapeId))
    (shapes : list ShapeRow) : list JoinedRow :=
  flat_map (fun rt =>
    map (fun s => (fst rt, s))
        (filter (fun s => String.eqb (shape_id s) (snd rt)) shapes))
    routes_trips.

(** The rows the two joins make of one route row and one trip: none when
    the trip is of another route, else one for each point of its shape. *)
Definition join_trip (shapes : list ShapeRow) (r : RouteRow) (t : TripRow)
  : list JoinedRow :=
  if String.eqb (trip_route_id t) (route_id r)
  then map (fun s => (r, s))
           (filter (fun s => String.eqb (shape_id s) (trip_shape_id t)) shapes)
  else [].

(** Route [rid] is listed in the routes table and has a trip with shape
    [sid], which has a point in the shapes table. *)
Definition linked (routes : list RouteRow) (trips : list TripRow)
    (shapes : list ShapeRow) (rid : RouteId) (sid : ShapeId) : Prop :=
  exists r t s,
    In r routes /\ In t trips /\ In s shapes
    /\ route_id r = rid /\ trip_route_id t = rid
    /\ trip_shape_id t = sid /\ shape_id s = sid.

(** Lines 40-52. *)
Definition routes_trips_shapes (routes : list RouteRow)
    (trips : list TripRow) (shapes : list ShapeRow) : list JoinedRow :=
  let trips := drop_duplicates trip_eqb trips in
  let routes_trips := merge_routes_trips routes trips in
  drop_duplicates joined_eqb (merge_shapes routes_trips shapes).

(** [set(joined[joined['route_id'] == route_id]['shape_id'])], listed in
    the order of first occurrence. The iteration order of a Python set is
    not specified; everything below that depends on the order is stated for
    an arbitrary list. *)
Definition shape_ids_of (joined : list JoinedRow) (rid : RouteId)
  : list ShapeId :=
  unique (map (fun x => shape_id (snd x))
              (filter (fun x => String.eqb (route_id (fst x)) rid) joined)).

(** [gj.Feature(geometry=..., properties={"route_id": route_id})] *)
Record Feature : Type := mkFeature {
  geometry : Geometry;
  properties_route_id : RouteId
}.

Fixpoint traverse {A B : Type} (f : A -> option B) (l : list A)
  : option (list B) :=
  match l with
  | [] => Some []
  | x :: xs =>
      match f x with
      | None => None
      | Some y =>
          match traverse f xs with
          | None => None
          | Some ys => Some (y :: ys)
          end
      end
  end.

Section Run.

Context {shapely : Shapely}.

Definition route_feature (shapes : list ShapeRow)
    (joined : list JoinedRow) (rid : RouteId) : option Feature :=
  match route_shape shapes (shape_ids_of joined rid) with
  | None => None
  | Some simplified_multiline => Some (mkFeature simplified_multiline rid)
  end.

(** The whole run: [route_shape_list], or [None] when a [KeyError]
    stops the script. *)
Definition run (routes : list RouteRow) (trips : list TripRow)
    (shapes : list ShapeRow) : option (list Feature) :=
  let joined := routes_trips_shapes routes trips shapes in
  traverse (route_feature shapes joined)
           (unique (map (fun x => route_id (fst x)) joined)).

(** The route loop of lines 57-116 over a given joined table. *)
Definition route_loop (shapes : list ShapeRow) (joined : list JoinedRow)
  : option (list Feature) :=
  traverse (route_feature shapes joined)
           (unique (map (fun x => route_id (fst x)) joined)).

End Run.

(** ** The shapely operations on one meridian

    The code of shapely is not part of the script. This is an
    implementation of [Shapely] for lines that run north along a common
    meridian: every point has the same longitude and the latitudes do not
    decrease along a line. There the buffer of a line meets the meridian in
    the latitudes from [r] south of its first point to [r] north of its
    last one, so a region is a list of closed latitude intervals, and
    containment and difference are interval computations with exact
    rationals. *)

Module Meridian.

Definition Interval : Type := (Q * Q)%type.

Definition lat (p : Point) : Q := snd p.

Definition Qlt_bool (x y : Q) : bool := negb (Qle_bool y x).

Definition Qmax (x y : Q) : Q := if Qle_bool x y then y else x.
Definition Qmin (x y : Q) : Q := if Qle_bool x y then x else y.

(** The latitudes spanned by a line; [None] for a line without points. *)
Definition span (line : list Point) : option Interval :=
  match line with
  | [] => None
  | p :: ps =>
      Some (fold_left (fun m q => Qmin m (lat q)) ps (lat p),
            fold_left (fun m q => Qmax m (lat q)) ps (lat p))
  end.

Definition spans (g : Geometry) : list Interval :=
  flat_map (fun line => match span line with
                        | Some i => [i]
                        | None => []
                        end) (parts g).

(** Modelled from the spec: the buffered region around a polyline, which
    the script takes from shapely, for lines on one meridian: the latitudes
    within [r] of a part. *)
Definition buffer (g : Geometry) (r : Q) : list Interval :=
  map (fun i => (fst i - r, snd i + r)%Q) (spans g).

Definition contains (x : Q) (i : Interval) : bool :=
  Qle_bool (fst i) x && Qle_bool x (snd i).

(** From latitude [m] inside interval [i] one can go on to its north end. *)
Definition hop (m : Q) (i : Interval) : Q :=
  if contains m i then Qmax m (snd i) else m.

Definition sweep (region : list Interval) (x : Q) : Q :=
  fold_left hop region x.

(** The northernmost latitude reached from [x] without leaving the
    region, in at most [fuel] sweeps over its intervals; each sweep that
    gets farther enters a new interval. *)
Fixpoint reach (fuel : nat) (x : Q) (region : list Interval) : Q :=
  match fuel with
  | O => x
  | S n => reach n (sweep region x) region
  end.

Definition covered (region : list Interval) (i : Interval) : bool :=
  existsb (contains (fst i)) region
  && Qle_bool (snd i) (reach (List.length region) (fst i) region).

(** Modelled from the spec: the polyline/region containment test, which
    the script takes from shapely, for lines on one meridian: every part
    lies in the region. *)
Definition within (g : Geometry) (region : list Interval) : bool :=
  forallb (covered region) (spans g).

(** What is left of a line outside one interval: the piece south of it
    and the piece north of it, each cut at the end of the interval. *)
Definition cut (i : Interval) (line : list Point) : list (list Point) :=
  match line with
  | [] => []
  | p :: _ =>
      let south := filter (fun q => Qlt_bool (lat q) (fst i)) line in
      let north := filter (fun q => Qlt_bool (snd i) (lat q)) line in
      let south_piece :=
        match south with
        | [] => []
        | _ :: _ =>
            if forallb (fun q => Qlt_bool (lat q) (fst i)) line then [line]
            else [south ++ [(fst p, fst i)]]
        end in
      let north_piece :=
        match north with
        | [] => []
        | _ :: _ =>
            if forallb (fun q => Qlt_bool (snd i) (lat q)) line then [line]
            else [(fst p, snd i) :: north]
        end in
      south_piece ++ north_piece
  end.

Definition of_parts (lines : list (list Point)) : Geometry :=
  match lines with
  | [line] => LineString line
  | _ => MultiLineString lines
  end.

(** Modelled from the spec: the polyline-minus-region difference, which
    the script takes from shapely, for lines on one meridian: the pieces of
    the parts that no interval of the region covers. *)
Definition difference (g : Geometry) (region : list Interval) : Geometry :=
  of_parts (fold_left (fun lines i => flat_map (cut i) lines)
                      region (parts g)).

(** Modelled from the spec: the polyline union, which the script takes
    from shapely, for lines that do not meet: the script only ever unites
    the accumulated lines with a new part outside their buffer, and the
    union collects the parts of both. *)
Definition union (g h : Geometry) : Geometry :=
  of_parts (parts g ++ parts h).

(** Modelled from the spec: the geometry primitives on one meridian. *)
#[export] Instance shapely : Shapely := {
  Region := list Interval;
  buffer := buffer;
  within := within;
  difference := difference;
  union := union
}.

End Meridian.

(** ** Example tables *)

Module Examples.

Definition row (id : ShapeId) (lat : Q) (seq : Z) : ShapeRow :=
  mkShapeRow id lat 0 (Some seq).



(** A shape of three points, one of them without sequence number. *)
Definition gap_shapes : list ShapeRow :=
  [ mkShapeRow "S" 0 0 (Some 1%Z); mkShapeRow "S" 1 0 None;
    mkShapeRow "S" 2 0 (Some 3%Z) ].

(** The scenario of the spec: A = (0,0),(0,1),(0,2) and B = (0,0),(0,1). *)
Definition nested_shapes : list ShapeRow :=
  [ row "A" 0 1; row "A" 1 2; row "A" 2 3; row "B" 0 1; row "B" 1 2 ].

(** The same two shapes and a third one, C, far from both. *)
Definition nested_spur_shapes : list ShapeRow :=
  [ row "A" 0 1; row "A" 1 2; row "A" 2 3; row "B" 0 1; row "B" 1 2;
    row "C" 5 1; row "C" 6 2 ].

(** Two shapes far apart on the meridian. *)
Definition apart_shapes : list ShapeRow :=
  [ row "A" 0 1; row "A" 1 2; row "A" 2 3; row "B" 5 1; row "B" 6 2 ].

(** A long shape A far north, and B, the first two points of C. *)
Definition branch_shapes : list ShapeRow :=
  [ row "A" 10 1; row "A" 11 2; row "A" 12 3; row "A" 13 4;
    row "B" 0 1; row "B" 1 2;
    row "C" 0 1; row "C" 1 2; row "C" 2 3 ].

End Examples.

(** * Properties *)

(** ** The rows of a shape and its polyline *)

Lemma coords_rows (shapes : list ShapeRow) (id : ShapeId) :
  coords shapes id
  = map (fun r => (shape_pt_lon r, shape_pt_lat r)) (rows_of shapes id).
Proof.
  unfold coords.
  induction (rows_of shapes id) as [|r rows IH]; simpl.
  - reflexivity.
  - now rewrite IH.
Qed.

Lemma coords_length (shapes : list ShapeRow) (id : ShapeId) :
  List.length (coords shapes id) = List.length (rows_of shapes id).
Proof. rewrite coords_rows. apply length_map. Qed.

Lemma filter_split_length {A : Type} (f : A -> bool) (l : list A) :
  List.length (filter f l) + List.length (filter (fun x => negb (f x)) l)
  = List.length l.
Proof.
  induction l as [|x l IH]; simpl; [reflexivity|].
  destruct (f x); simpl; lia.
Qed.

Lemma count_map {A B : Type} (f : A -> option B) (l : list A) :
  count (map f l) = List.length (filter (fun x => is_some (f x)) l).
Proof.
  unfold count.
  induction l as [|x l IH]; simpl; [reflexivity|].
  destruct (is_some (f x)); simpl; congruence.
Qed.




(** ** Representative selection *)

Lemma select_fold_spec (cnt : ShapeId -> nat) (ids : list ShapeId) :
  forall st : ShapeId * nat,
    snd st = cnt (fst st) ->
    let r := fold_left (select_step cnt) ids st in
    snd r = cnt (fst r)
    /\ (fst r = fst st \/ In (fst r) ids)
    /\ snd st <= snd r
    /\ forall x, In x ids -> cnt x <= snd r.
Proof.
  induction ids as [|id ids IH]; intros st Hst; simpl.
  - repeat split; auto. intros x [].
  - assert (Hstep : snd (select_step cnt st id) = cnt (fst (select_step cnt st id))).
    { unfold select_step. destruct (snd st <? cnt id); auto. }
    destruct (IH _ Hstep) as (H1 & H2 & H3 & H4).
    assert (Hge : snd st <= snd (select_step cnt st id)
                  /\ cnt id <= snd (select_step cnt st id)
                  /\ (fst (select_step cnt st id) = fst st
                      \/ fst (select_step cnt st id) = id)).
    { unfold select_step.
      destruct (snd st <? cnt id) eqn:E; simpl.
      - apply Nat.ltb_lt in E. repeat split; auto; lia.
      - apply Nat.ltb_ge in E. repeat split; auto. }
    destruct Hge as (G1 & G2 & G3).
    repeat split.
    + exact H1.
    + destruct H2 as [H2|H2]; [|now right; right].
      rewrite H2. destruct G3 as [G3|G3]; [now left|right; left; now rewrite G3].
    + lia.
    + intros x [<-|Hx]; [lia|now apply H4].
Qed.

Lemma select_longest_spec (cnt : ShapeId -> nat) (first : ShapeId)
    (ids : list ShapeId) :
  In first ids ->
  In (select_longest cnt first ids) ids
  /\ forall x, In x ids -> cnt x <= cnt (select_longest cnt first ids).
Proof.
  intros Hin. unfold select_longest.
  destruct (select_fold_spec cnt ids (first, cnt first) eq_refl)
    as (H1 & H2 & _ & H4).
  split.
  - destruct H2 as [H2|H2]; [|exact H2]. simpl in H2. now rewrite H2.
  - intros x Hx. rewrite <- H1. now apply H4.
Qed.

Lemma select_longest_single (cnt : ShapeId -> nat) (id : ShapeId) :
  select_longest cnt id [id] = id.
Proof.
  unfold select_longest, select_step; simpl.
  now rewrite Nat.ltb_irrefl.
Qed.

Lemma representative_spec (shapes : list ShapeRow)
    (ids : list ShapeId) :
  ids <> [] ->
  exists longest,
    representative shapes ids = Some longest
    /\ In longest ids
    /\ forall id, In id ids -> pt_count shapes id <= pt_count shapes longest.
Proof.
  intros Hne. destruct ids as [|first rest]; [contradiction|].
  unfold representative; simpl pop.
  eexists; split; [reflexivity|].
  apply select_longest_spec. now left.
Qed.

(** C1. For a set of shape ids in any iteration order and any element
    popped from it, the selection returns a member of the set, and no shape
    of the set has more counted points than the one returned; with the
    element that [pop] takes, this is the representative of the route. *)
Theorem representative_is_longest_member (shapes : list ShapeRow)
    (ids : list ShapeId) (first : ShapeId) :
  In first ids ->
  let longest := select_longest (pt_count shapes) first ids in
  In longest ids
  /\ (forall id, In id ids -> pt_count shapes id <= pt_count shapes longest)
  /\ (pop ids = Some first -> representative shapes ids = Some longest).
Proof.
  intros Hin longest.
  destruct (select_longest_spec (pt_count shapes) first ids Hin) as [H1 H2].
  split; [exact H1|]. split; [exact H2|].
  intros Hpop. unfold representative. now rewrite Hpop.
Qed.

Lemma representative_is_longest_member_witness :
  In "C" ["B"; "A"; "C"]
  /\ In (select_longest (pt_count Examples.branch_shapes) "C" ["B"; "A"; "C"])
        ["B"; "A"; "C"]
  /\ (forall id, In id ["B"; "A"; "C"] ->
        pt_count Examples.branch_shapes id
        <= pt_count Examples.branch_shapes
             (select_longest (pt_count Examples.branch_shapes) "C"
                ["B"; "A"; "C"]))
  /\ (pop ["B"; "A"; "C"] = Some "C" ->
      representative Examples.branch_shapes ["B"; "A"; "C"]
      = Some (select_longest (pt_count Examples.branch_shapes) "C"
                ["B"; "A"; "C"])).
Proof.
  assert (H : In "C" ["B"; "A"; "C"]) by (simpl; auto).
  split; [exact H|].
  apply (@representative_is_longest_member Examples.branch_shapes
           ["B"; "A"; "C"] "C" H).
Defined.




(** C10. The count the selection compares is the number of rows of the
    shape whose sequence cell is not missing; with the rows whose sequence
    cell is missing it adds up to the number of coordinate pairs of the
    polyline, and it is strictly smaller on a table with a missing cell. *)
Theorem pt_count_skips_missing_sequence :
  (forall shapes id,
     pt_count shapes id
     = List.length (filter (fun r => is_some (shape_pt_sequence r))
                           (rows_of shapes id)))
  /\ (forall shapes id,
        pt_count shapes id + null_sequence_rows shapes id
        = List.length (coords shapes id))
  /\ (forall shapes first ids,
        select_longest (pt_count shapes) first ids
        = fst (fold_left
                 (fun st id => if snd st <? pt_count shapes id
                               then (id, pt_count shapes id) else st)
                 ids (first, pt_count shapes first)))
  /\ pt_count Examples.gap_shapes "S" = 2
  /\ List.length (coords Examples.gap_shapes "S") = 3.
Proof.
  split; [|split; [|split; [|split]]].
  - intros. unfold pt_count. apply count_map.
  - intros. unfold pt_count, null_sequence_rows.
    rewrite count_map, coords_length.
    apply filter_split_length.
  - reflexivity.
  - reflexivity.
  - reflexivity.
Qed.

(** ** The simplifier *)

Section DouglasPeuckerFacts.

Variable dist2 : Point -> Point -> Point -> Q.
Variable tol2 : Q.

Lemma split_max_app (d : Point -> Q) (ps : list Point) :
  forall p before m after,
    split_max d p ps = (before, m, after) ->
    p :: ps = before ++ m :: after.
Proof.
  induction ps as [|q qs IH]; intros p before m after; simpl.
  - intros [= <- <- <-]. reflexivity.
  - destruct (split_max d q qs) as [[bf m'] af] eqn:E.
    destruct (Qle_bool (d m') (d p)).
    + intros [= <- <- <-]. reflexivity.
    + intros [= <- <- <-]. simpl. f_equal. now apply IH.
Qed.

Lemma split_max_bounds (d : Point -> Q) (ps : list Point) :
  forall p before m after,
    split_max d p ps = (before, m, after) ->
    (forall x, In x before -> Qle_bool (d m) (d x) = false)
    /\ (forall x, In x after -> Qle_bool (d x) (d m) = true).
Proof.
  induction ps as [|q qs IH]; intros p before m after; simpl.
  - intros [= <- <- <-]. split; intros x [].
  - destruct (split_max d q qs) as [[bf m'] af] eqn:E.
    destruct (IH _ _ _ _ E) as [Hbf Haf].
    pose proof (split_max_app _ _ _ E) as Happ.
    destruct (Qle_bool (d m') (d p)) eqn:Ep.
    + intros [= <- <- <-]. split; [intros x []|].
      intros x Hx. rewrite Happ in Hx.
      apply Qle_bool_iff in Ep. apply Qle_bool_iff.
      apply in_app_or in Hx as [Hx|[<-|Hx]].
      * specialize (Hbf _ Hx).
        destruct (Qlt_le_dec (d x) (d m')) as [Hlt|Hle].
        -- apply Qlt_le_weak. eapply Qlt_le_trans; eauto.
        -- apply Qle_bool_iff in Hle. congruence.
      * exact Ep.
      * specialize (Haf _ Hx). apply Qle_bool_iff in Haf.
        eapply Qle_trans; eauto.
    + intros [= <- <- <-]. split; [|exact Haf].
      intros x [<-|Hx]; [exact Ep|now apply Hbf].
Qed.

(** The split is determined by its bounds: a point strictly above all
    points before it and not below any point after it is the first
    maximum. *)
Lemma split_max_unique (d : Point -> Q) (m : Point) (after : list Point) :
  (forall x, In x after -> Qle_bool (d x) (d m) = true) ->
  forall before p ps,
    (forall x, In x before -> Qle_bool (d m) (d x) = false) ->
    p :: ps = before ++ m :: after ->
    split_max d p ps = (before, m, after).
Proof.
  intros Haf. induction before as [|b before IH]; intros p ps Hbf Heq.
  - simpl in Heq. injection Heq as -> ->.
    destruct after as [|q qs]; simpl; [reflexivity|].
    destruct (split_max d q qs) as [[bf m'] af] eqn:E.
    pose proof (split_max_app _ _ _ E) as Happ.
    assert (Hm : In m' (q :: qs)).
    { rewrite Happ. apply in_or_app. right. now left. }
    now rewrite (Haf _ Hm).
  - simpl in Heq. injection Heq as -> ->.
    destruct (before ++ m :: after) as [|q qs] eqn:E.
    + destruct before; discriminate.
    + simpl.
      rewrite (IH q qs); [|intros x Hx; apply Hbf; now right|reflexivity].
      rewrite (Hbf b); [reflexivity|now left].
Qed.

Lemma split_max_lengths (d : Point -> Q) (p : Point) (ps : list Point)
    (before : list Point) (m : Point) (after : list Point) :
  split_max d p ps = (before, m, after) ->
  List.length before <= List.length ps
  /\ List.length after <= List.length ps.
Proof.
  intros E. apply split_max_app in E.
  apply (f_equal (@List.length Point)) in E.
  rewrite length_app in E. simpl in E. lia.
Qed.

Lemma dp_section_In (fuel : nat) :
  forall a mid b x,
    In x (dp_section dist2 tol2 fuel a mid b) -> In x mid.
Proof.
  induction fuel as [|n IH]; intros a mid b x; destruct mid as [|p ps];
    simpl; auto.
  destruct (split_max (dist2 a b) p ps) as [[bf m] af] eqn:E.
  pose proof (split_max_app _ _ _ E) as Happ.
  destruct (Qle_bool (dist2 a b m) tol2); [intros []|].
  intros Hx. change (In x (p :: ps)). rewrite Happ.
  apply in_app_or in Hx as [Hx|[<-|Hx]]; apply in_or_app.
  - left. eapply IH; eauto.
  - right. now left.
  - right. right. eapply IH; eauto.
Qed.

Lemma dp_section_length (fuel : nat) :
  forall a mid b,
    List.length (dp_section dist2 tol2 fuel a mid b) <= List.length mid.
Proof.
  induction fuel as [|n IH]; intros a mid b; destruct mid as [|p ps];
    simpl; auto.
  destruct (split_max (dist2 a b) p ps) as [[bf m] af] eqn:E.
  apply split_max_app in E.
  apply (f_equal (@List.length Point)) in E.
  rewrite length_app in E. simpl in E.
  destruct (Qle_bool (dist2 a b m) tol2); simpl; [lia|].
  rewrite length_app. simpl.
  specialize (IH a bf m) as H1. specialize (IH m af b) as H2. lia.
Qed.

(** The fuel never runs out: any amount from the length of the section
    on gives the same points. *)
Lemma dp_section_fuel (n : nat) :
  forall k a mid b,
    List.length mid <= n -> List.length mid <= k ->
    dp_section dist2 tol2 n a mid b = dp_section dist2 tol2 k a mid b.
Proof.
  induction n as [|n IH]; intros k a mid b Hn Hk.
  - destruct mid; [|simpl in Hn; lia]. destruct k; reflexivity.
  - destruct mid as [|p ps]; [destruct k; reflexivity|].
    destruct k as [|k]; [simpl in Hk; lia|].
    simpl in *.
    destruct (split_max (dist2 a b) p ps) as [[bf m] af] eqn:E.
    destruct (split_max_lengths _ _ _ E) as [L1 L2].
    destruct (Qle_bool (dist2 a b m) tol2); [reflexivity|].
    rewrite (IH k a bf m), (IH k m af b) by lia. reflexivity.
Qed.

(** Simplifying the kept points of a section keeps them all. *)
Lemma dp_section_idempotent (n : nat) :
  forall k a mid b,
    List.length mid <= n ->
    List.length (dp_section dist2 tol2 n a mid b) <= k ->
    dp_section dist2 tol2 k a (dp_section dist2 tol2 n a mid b) b
    = dp_section dist2 tol2 n a mid b.
Proof.
  induction n as [|n IH]; intros k a mid b Hn Hk.
  - destruct mid; [|simpl in Hn; lia]. destruct k; reflexivity.
  - destruct mid as [|p ps]; [destruct k; reflexivity|].
    simpl in Hn, Hk |- *.
    destruct (split_max (dist2 a b) p ps) as [[bf m] af] eqn:E.
    destruct (split_max_lengths _ _ _ E) as [L1 L2].
    destruct (split_max_bounds _ _ _ E) as [Hbf Haf].
    destruct (Qle_bool (dist2 a b m) tol2) eqn:Et;
      [destruct k; reflexivity|].
    set (X := dp_section dist2 tol2 n a bf m) in *.
    set (Y := dp_section dist2 tol2 n m af b) in *.
    rewrite length_app in Hk. simpl in Hk.
    destruct k as [|k]; [lia|].
    destruct (X ++ m :: Y) as [|p' ps'] eqn:EXY.
    { destruct X; discriminate. }
    simpl.
    rewrite (@split_max_unique (dist2 a b) m Y) with (before := X).
    + rewrite Et. unfold X, Y.
      rewrite (IH k a bf m), (IH k m af b); try lia.
      * exact EXY.
      * fold Y. lia.
      * fold X. lia.
    + intros x Hx. apply Haf. eapply dp_section_In; eauto.
    + intros x Hx. apply Hbf. eapply dp_section_In; eauto.
    + now rewrite EXY.
Qed.

Lemma removelast_last_app {A : Type} (l : list A) (b d : A) :
  removelast (l ++ [b]) = l /\ last (l ++ [b]) d = b.
Proof.
  split; [apply removelast_last|apply last_last].
Qed.

(** The shape of a simplified line of two points or more. *)
Lemma simplify_line_shape (a : Point) (rest : list Point) :
  rest <> [] ->
  simplify_line dist2 tol2 (a :: rest)
  = a :: dp_section dist2 tol2 (List.length (removelast rest)) a
           (removelast rest) (last rest a) ++ [last rest a].
Proof.
  destruct rest; [contradiction|reflexivity].
Qed.

Lemma simplify_line_idempotent (points : list Point) :
  simplify_line dist2 tol2 (simplify_line dist2 tol2 points)
  = simplify_line dist2 tol2 points.
Proof.
  destruct points as [|a rest]; [reflexivity|].
  destruct rest as [|q rest']; [reflexivity|].
  rewrite simplify_line_shape by discriminate.
  set (mid := removelast (q :: rest')).
  set (b := last (q :: rest') a).
  set (kept := dp_section dist2 tol2 (List.length mid) a mid b).
  rewrite simplify_line_shape by (destruct kept; discriminate).
  destruct (removelast_last_app kept b a) as [-> ->].
  f_equal. f_equal.
  unfold kept at 2.
  rewrite dp_section_idempotent; [reflexivity|lia|fold kept; lia].
Qed.

Lemma simplify_line_ends (points : list Point) :
  ends (simplify_line dist2 tol2 points) = ends points.
Proof.
  destruct points as [|a rest]; [reflexivity|].
  destruct rest as [|q rest']; [reflexivity|].
  rewrite simplify_line_shape by discriminate.
  unfold ends. now rewrite last_last.
Qed.

Lemma simplify_line_length (points : list Point) :
  List.length (simplify_line dist2 tol2 points) <= List.length points
  /\ (2 <= List.length points ->
      2 <= List.length (simplify_line dist2 tol2 points)).
Proof.
  destruct points as [|a rest]; [simpl; lia|].
  destruct rest as [|q rest']; [simpl; lia|].
  rewrite simplify_line_shape by discriminate.
  set (rest := q :: rest').
  cbn [List.length]. rewrite length_app. cbn [List.length].
  pose proof (dp_section_length (List.length (removelast rest)) a
                (removelast rest) (last rest a)) as H.
  assert (Hr : List.length (removelast rest) + 1 = List.length rest).
  { rewrite (@app_removelast_last _ rest a) at 2 by discriminate.
    rewrite length_app. reflexivity. }
  split; lia.
Qed.

Lemma simplify_line_incl (points : list Point) :
  incl (simplify_line dist2 tol2 points) points.
Proof.
  destruct points as [|a rest]; [apply incl_refl|].
  destruct rest as [|q rest']; [apply incl_refl|].
  rewrite simplify_line_shape by discriminate.
  set (rest := q :: rest').
  assert (Hr : rest = removelast rest ++ [last rest a])
    by (apply app_removelast_last; discriminate).
  intros x [<-|Hx]; [now left|]. right.
  rewrite Hr. apply in_app_or in Hx as [Hx|Hx]; apply in_or_app.
  - left. eapply dp_section_In; eauto.
  - now right.
Qed.

End DouglasPeuckerFacts.

(** C6. Simplifying a simplified geometry with the same tolerance returns
    it unchanged. *)
Theorem simplify_idempotent (g : Geometry) (tol : Q) :
  simplify (simplify g tol) tol = simplify g tol.
Proof.
  unfold simplify. destruct g as [points|lines]; simpl; f_equal.
  - apply simplify_line_idempotent.
  - rewrite map_map. apply map_ext. intros line.
    apply simplify_line_idempotent.
Qed.

(** C7. The simplified geometry has as many parts as the input; each part
    keeps the two ends of the part it comes from, keeps only points of
    that part, and is still a line of two points or more when that part
    was one. *)
Theorem simplify_keeps_parts_and_ends (g : Geometry) (tol : Q) :
  List.length (parts (simplify g tol)) = List.length (parts g)
  /\ Forall2 (fun line kept =>
                ends kept = ends line
                /\ incl kept line
                /\ (2 <= List.length line -> 2 <= List.length kept))
             (parts g) (parts (simplify g tol)).
Proof.
  assert (Hline : forall line,
    ends (simplify_line segment_dist2 (Qsquare tol) line) = ends line
    /\ incl (simplify_line segment_dist2 (Qsquare tol) line) line
    /\ (2 <= List.length line ->
        2 <= List.length (simplify_line segment_dist2 (Qsquare tol) line))).
  { intros line. split; [apply simplify_line_ends|].
    split; [apply simplify_line_incl|apply simplify_line_length]. }
  unfold simplify. destruct g as [points|lines]; simpl.
  - split; [reflexivity|]. constructor; [apply Hline|constructor].
  - split; [apply length_map|].
    induction lines as [|line lines IH]; simpl; constructor; auto.
Qed.

(** ** The per-route construction *)

Section RouteShapeFacts.

Context {shapely : Shapely}.
Variable shapes : list ShapeRow.

Lemma overlap_reduce_app (longest : ShapeId) (done rest : list ShapeId) :
  overlap_reduce shapes longest (done ++ rest)
  = fold_left (reduce_step shapes) rest
              (overlap_reduce shapes longest done).
Proof. unfold overlap_reduce. apply fold_left_app. Qed.

Lemma reduce_step_area (st : Geometry * Region) (id : ShapeId) :
  snd st = buffer (fst st) buffer_radius ->
  snd (reduce_step shapes st id)
  = buffer (fst (reduce_step shapes st id)) buffer_radius.
Proof.
  destruct st as [multiline area]; simpl. intros ->.
  destruct (within _ _); reflexivity.
Qed.

Lemma fold_reduce_area (ids : list ShapeId) :
  forall st : Geometry * Region,
    snd st = buffer (fst st) buffer_radius ->
    snd (fold_left (reduce_step shapes) ids st)
    = buffer (fst (fold_left (reduce_step shapes) ids st)) buffer_radius.
Proof.
  induction ids as [|id ids IH]; intros st Hst; simpl; [exact Hst|].
  apply IH. now apply reduce_step_area.
Qed.

Lemma reduce_step_within (st : Geometry * Region) (id : ShapeId) :
  within (LineString (coords shapes id)) (snd st) = true ->
  reduce_step shapes st id = st.
Proof.
  destruct st as [multiline area]; simpl. now intros ->.
Qed.

Lemma reduce_step_outside (st : Geometry * Region) (id : ShapeId) :
  within (LineString (coords shapes id)) (snd st) = false ->
  reduce_step shapes st id
  = (union (fst st) (difference (LineString (coords shapes id)) (snd st)),
     buffer (union (fst st)
                   (difference (LineString (coords shapes id)) (snd st)))
            buffer_radius).
Proof.
  destruct st as [multiline area]; simpl. now intros ->.
Qed.

End RouteShapeFacts.

(** ** The covered region on one meridian only grows *)

Module MeridianFacts.
Import Meridian.

Lemma Qmax_ge_l x y : (x <= Qmax x y)%Q.
Proof.
  unfold Qmax. destruct (Qle_bool x y) eqn:E.
  - now apply Qle_bool_iff.
  - apply Qle_refl.
Qed.

Lemma hop_ge m i : (m <= hop m i)%Q.
Proof.
  unfold hop. destruct (contains m i); [apply Qmax_ge_l|apply Qle_refl].
Qed.

Lemma hop_mono m m' i : (m <= m')%Q -> (hop m i <= hop m' i)%Q.
Proof.
  intros H. unfold hop.
  destruct (contains m i) eqn:C, (contains m' i) eqn:C'.
  - unfold contains in C, C'.
    apply andb_true_iff in C as [_ C], C' as [_ C'].
    unfold Qmax. rewrite C, C'. apply Qle_refl.
  - unfold contains in C, C'.
    apply andb_true_iff in C as [Cl Ch].
    unfold Qmax. rewrite Ch.
    apply Qle_bool_iff in Cl.
    assert (Hl : Qle_bool (fst i) m' = true)
      by (apply Qle_bool_iff; eapply Qle_trans; eauto).
    rewrite Hl in C'. simpl in C'.
    destruct (Qlt_le_dec (snd i) m') as [L|L].
    + now apply Qlt_le_weak.
    + apply Qle_bool_iff in L. congruence.
  - eapply Qle_trans; [exact H|apply Qmax_ge_l].
  - exact H.
Qed.

Lemma sweep_ge region : forall x, (x <= sweep region x)%Q.
Proof.
  induction region as [|i region IH]; intros x; simpl.
  - apply Qle_refl.
  - eapply Qle_trans; [apply hop_ge|apply IH].
Qed.

Lemma sweep_mono region :
  forall x x', (x <= x')%Q -> (sweep region x <= sweep region x')%Q.
Proof.
  induction region as [|i region IH]; intros x x' H; simpl; auto.
  apply IH. now apply hop_mono.
Qed.

Lemma sweep_app region extra x x' :
  (x <= x')%Q -> (sweep region x <= sweep (region ++ extra) x')%Q.
Proof.
  intros H. unfold sweep. rewrite fold_left_app.
  eapply Qle_trans; [apply sweep_mono; exact H|apply sweep_ge].
Qed.

Lemma reach_ge n region : forall x, (x <= reach n x region)%Q.
Proof.
  induction n as [|n IH]; intros x; simpl.
  - apply Qle_refl.
  - eapply Qle_trans; [apply (sweep_ge region)|apply IH].
Qed.

Lemma reach_grows n region extra :
  forall k x x', (x <= x')%Q ->
    (reach n x region <= reach (n + k) x' (region ++ extra))%Q.
Proof.
  induction n as [|n IH]; intros k x x' H.
  - simpl reach at 1. eapply Qle_trans; [exact H|apply reach_ge].
  - simpl. apply IH. now apply sweep_app.
Qed.

Lemma covered_grows region extra i :
  covered region i = true -> covered (region ++ extra) i = true.
Proof.
  unfold covered. intros H. apply andb_true_iff in H as [H1 H2].
  apply andb_true_iff. split.
  - rewrite existsb_app, H1. reflexivity.
  - apply Qle_bool_iff in H2. apply Qle_bool_iff.
    rewrite length_app.
    eapply Qle_trans; [exact H2|apply reach_grows; apply Qle_refl].
Qed.

Lemma parts_of_parts lines : parts (of_parts lines) = lines.
Proof. destruct lines as [|l [|l' ls]]; reflexivity. Qed.

Lemma buffer_union m d r :
  Meridian.buffer (Meridian.union m d) r
  = Meridian.buffer m r ++ Meridian.buffer d r.
Proof.
  unfold Meridian.buffer, Meridian.union, spans.
  now rewrite parts_of_parts, flat_map_app, map_app.
Qed.

Lemma within_grows g m d r :
  Meridian.within g (Meridian.buffer m r) = true ->
  Meridian.within g (Meridian.buffer (Meridian.union m d) r) = true.
Proof.
  unfold Meridian.within. rewrite buffer_union.
  rewrite !forallb_forall. intros H i Hi. apply covered_grows. now apply H.
Qed.
End MeridianFacts.

(** A shape within the buffer of the longest shape stays within the
    covered region, provided the buffer of a union covers what the buffer
    of its first operand covers; it contributes nothing wherever the loop
    meets it. *)

Section RegionGrows.

Context {shapely : Shapely}.
Variable shapes : list ShapeRow.

Hypothesis buffer_union_grows :
  forall g m d,
    within g (buffer m buffer_radius) = true ->
    within g (buffer (union m d) buffer_radius) = true.

Lemma within_fold_reduce (g : Geometry) (ids : list ShapeId) :
  forall st : Geometry * Region,
    snd st = buffer (fst st) buffer_radius ->
    within g (snd st) = true ->
    within g (snd (fold_left (reduce_step shapes) ids st)) = true.
Proof.
  induction ids as [|id ids IH]; intros st Hst Hg; simpl; [exact Hg|].
  apply IH; [now apply reduce_step_area|].
  destruct (within (LineString (coords shapes id)) (snd st)) eqn:E.
  - now rewrite reduce_step_within.
  - rewrite reduce_step_outside by exact E. simpl.
    apply buffer_union_grows. now rewrite <- Hst.
Qed.

Lemma within_longest_buffer_contributes_nothing (longest id : ShapeId)
    (before after : list ShapeId) :
  within (LineString (coords shapes id))
         (buffer (LineString (coords shapes longest)) buffer_radius) = true ->
  overlap_reduce shapes longest (before ++ id :: after)
  = overlap_reduce shapes longest (before ++ after).
Proof.
  intros Hin. rewrite !overlap_reduce_app. simpl.
  rewrite reduce_step_within; [reflexivity|].
  unfold overlap_reduce. apply within_fold_reduce; [reflexivity|exact Hin].
Qed.

End RegionGrows.

(** On one meridian: B, the first two points of A, contributes nothing to
    the route of A, B and a shape C met before it. *)
Example nested_path_on_meridian :
  overlap_reduce (shapely := Meridian.shapely)
    Examples.nested_spur_shapes "A" (["C"] ++ "B" :: [])
  = overlap_reduce (shapely := Meridian.shapely)
      Examples.nested_spur_shapes "A" (["C"] ++ []).
Proof.
  apply (@within_longest_buffer_contributes_nothing Meridian.shapely).
  - intros g m d. apply MeridianFacts.within_grows.
  - vm_compute. reflexivity.
Qed.

(** The simplifier at work: a point within the tolerance of the segment
    between its neighbours goes, a point farther away stays. *)
Example simplify_drops_near_point :
  simplify (LineString [(0, 0); (1, 1 # 100000); (2, 0)]%Q) tolerance
  = LineString [(0, 0); (2, 0)]%Q.
Proof. vm_compute. reflexivity. Qed.

Example simplify_keeps_far_point :
  simplify (LineString [(0, 0); (1, 1 # 1000); (2, 0); (3, 0)]%Q) tolerance
  = LineString [(0, 0); (1, 1 # 1000); (2, 0); (3, 0)]%Q.
Proof. vm_compute. reflexivity. Qed.

(** C3. For a route with a single shape the loop over the other shapes
    does nothing: the geometry of the route is the simplified line of that
    shape, which has one part. *)
Theorem single_path_route {shapely : Shapely} (shapes : list ShapeRow)
    (id : ShapeId) :
  route_shape shapes [id]
  = Some (simplify (LineString (coords shapes id)) tolerance)
  /\ List.length (parts (simplify (LineString (coords shapes id)) tolerance))
     = 1.
Proof.
  split; [|reflexivity].
  unfold route_shape, representative, pop.
  rewrite select_longest_single. simpl remove.
  destruct (string_dec id id) as [_|Hne]; [reflexivity|now elim Hne].
Qed.

(** C5. The covered region starts as the buffer of radius 0.0001 of the
    line of the longest shape; after any number of turns of the loop it is
    the buffer of radius 0.0001 of the geometry accumulated so far; the
    next shape is tested against that region, and a shape not within it
    replaces the region by the buffer of the new accumulated geometry. *)
Theorem covered_region_is_buffer {shapely : Shapely} (shapes : list ShapeRow)
    (longest : ShapeId) :
  reduce_init shapes longest
  = (LineString (coords shapes longest),
     buffer (LineString (coords shapes longest)) (1 # 10000))
  /\ (forall done,
        snd (overlap_reduce shapes longest done)
        = buffer (fst (overlap_reduce shapes longest done)) (1 # 10000))
  /\ (forall done id,
        overlap_reduce shapes longest (done ++ [id])
        = reduce_step shapes (overlap_reduce shapes longest done) id)
  /\ (forall st id,
        within (LineString (coords shapes id)) (snd st) = false ->
        snd (reduce_step shapes st id)
        = buffer (union (fst st)
                        (difference (LineString (coords shapes id)) (snd st)))
                 (1 # 10000)).
Proof.
  split; [reflexivity|]. split; [|split].
  - intros done. unfold overlap_reduce.
    apply (fold_reduce_area shapes). reflexivity.
  - intros done id. now rewrite overlap_reduce_app.
  - intros st id Hout. now rewrite reduce_step_outside.
Qed.




(** C8. A route of two shapes, the other one apart from the longest: it
    is not within the buffer of the longest, the buffer takes nothing away
    from it, and the union of the two lines has them as its two parts.
    Then the geometry of the route has two parts, the simplified line of
    each shape. *)
Theorem two_disjoint_paths {shapely : Shapely} (shapes : list ShapeRow)
    (shape_ids : list ShapeId) (longest other : ShapeId) :
  representative shapes shape_ids = Some longest ->
  remove string_dec longest shape_ids = [other] ->
  within (LineString (coords shapes other))
         (buffer (LineString (coords shapes longest)) buffer_radius) = false ->
  difference (LineString (coords shapes other))
             (buffer (LineString (coords shapes longest)) buffer_radius)
  = LineString (coords shapes other) ->
  union (LineString (coords shapes longest))
        (LineString (coords shapes other))
  = MultiLineString [coords shapes longest; coords shapes other] ->
  exists kept_longest kept_other,
    route_shape shapes shape_ids
    = Some (MultiLineString [kept_longest; kept_other])
    /\ LineString kept_longest
       = simplify (LineString (coords shapes longest)) tolerance
    /\ LineString kept_other
       = simplify (LineString (coords shapes other)) tolerance
    /\ List.length (parts (MultiLineString [kept_longest; kept_other])) = 2.
Proof.
  intros Hrep Hrest Hout Hdiff Hunion.
  unfold route_shape. rewrite Hrep, Hrest.
  unfold overlap_reduce, reduce_init. cbn [fold_left].
  rewrite reduce_step_outside by exact Hout.
  cbn [fst snd]. rewrite Hdiff, Hunion.
  do 2 eexists. split; [reflexivity|].
  repeat split.
Qed.

Lemma two_disjoint_paths_witness :
  exists kept_longest kept_other,
    route_shape (shapely := Meridian.shapely)
      Examples.apart_shapes ["B"; "A"]
    = Some (MultiLineString [kept_longest; kept_other])
    /\ LineString kept_longest
       = simplify (LineString (coords Examples.apart_shapes "A")) tolerance
    /\ LineString kept_other
       = simplify (LineString (coords Examples.apart_shapes "B")) tolerance
    /\ List.length (parts (MultiLineString [kept_longest; kept_other])) = 2.
Proof.
  apply (@two_disjoint_paths Meridian.shapely Examples.apart_shapes
           ["B"; "A"] "A" "B");
    vm_compute; reflexivity.
Defined.

(** ** The joins and the route loop *)

Lemma keep_first_In {A : Type} (eqb : A -> A -> bool) (l : list A) :
  forall seen x, In x (keep_first eqb seen l) -> In x l.
Proof.
  induction l as [|y l IH]; intros seen x; simpl; [auto|].
  destruct (existsb (eqb y) seen).
  - intros Hx. right. eapply IH; eauto.
  - intros [<-|Hx]; [now left|right; eapply IH; eauto].
Qed.

Lemma unique_In (l : list string) (x : string) : In x (unique l) -> In x l.
Proof. apply keep_first_In. Qed.

Lemma unique_nonempty (l : list string) : l <> [] -> unique l <> [].
Proof. destruct l; [contradiction|discriminate]. Qed.

Lemma traverse_total {A B : Type} (f : A -> option B) (g : B -> A)
    (l : list A) :
  (forall x, In x l -> exists y, f x = Some y /\ g y = x) ->
  exists ys, traverse f l = Some ys /\ map g ys = l.
Proof.
  induction l as [|x l IH]; intros Hf; simpl.
  - now exists [].
  - destruct (Hf x (or_introl eq_refl)) as (y & -> & Hy).
    destruct IH as (ys & -> & Hys); [intros z Hz; apply Hf; now right|].
    exists (y :: ys). simpl. now rewrite Hy, Hys.
Qed.

Lemma shape_ids_of_nonempty (joined : list JoinedRow) (rid : RouteId) :
  In rid (map (fun x => route_id (fst x)) joined) ->
  shape_ids_of joined rid <> [].
Proof.
  intros Hin. apply in_map_iff in Hin as (x & Hx & Hin).
  unfold shape_ids_of. apply unique_nonempty.
  set (rows := filter (fun x => String.eqb (route_id (fst x)) rid) joined).
  assert (Hf : In x rows).
  { apply filter_In. split; [exact Hin|]. now apply String.eqb_eq. }
  destruct rows; [contradiction|discriminate].
Qed.

Lemma shape_ids_of_empty (joined : list JoinedRow) (rid : RouteId) :
  shape_ids_of joined rid = [] ->
  ~ In rid (map (fun x => route_id (fst x)) joined).
Proof.
  intros Hempty Hin. now apply (shape_ids_of_nonempty joined rid).
Qed.

(** A row of the joined table comes from a route row and a trip of that
    route. *)
Lemma joined_row_has_trip (routes : list RouteRow) (trips : list TripRow)
    (shapes : list ShapeRow) (x : JoinedRow) :
  In x (routes_trips_shapes routes trips shapes) ->
  In (fst x) routes
  /\ exists t, In t trips
               /\ trip_route_id t = route_id (fst x)
               /\ trip_shape_id t = shape_id (snd x).
Proof.
  unfold routes_trips_shapes, drop_duplicates. intros Hx.
  apply keep_first_In in Hx.
  unfold merge_shapes in Hx. apply in_flat_map in Hx as (rt & Hrt & Hx).
  apply in_map_iff in Hx as (s & <- & Hs).
  apply filter_In in Hs as [_ Hs]. apply String.eqb_eq in Hs.
  unfold merge_routes_trips in Hrt.
  apply in_flat_map in Hrt as (r & Hr & Hrt).
  apply in_map_iff in Hrt as (t & <- & Ht).
  apply filter_In in Ht as [Ht Heq]. apply String.eqb_eq in Heq.
  apply keep_first_In in Ht.
  simpl. split; [exact Hr|]. exists t. auto.
Qed.

(** C9. The run never stops on an empty set: it returns one feature for
    each route id of the joined table; the set of shape ids of every such
    route is not empty; a route whose set of shape ids is empty, and so a
    route without trips, has no feature. *)
Theorem run_skips_routes_without_paths {shapely : Shapely}
    (routes : list RouteRow) (trips : list TripRow)
    (shapes : list ShapeRow) :
  let joined := routes_trips_shapes routes trips shapes in
  exists features,
    run routes trips shapes = Some features
    /\ map properties_route_id features
       = unique (map (fun x => route_id (fst x)) joined)
    /\ (forall f, In f features ->
          shape_ids_of joined (properties_route_id f) <> [])
    /\ (forall rid, shape_ids_of joined rid = [] ->
          ~ In rid (map properties_route_id features))
    /\ (forall rid, (forall t, In t trips -> trip_route_id t <> rid) ->
          ~ In rid (map properties_route_id features)).
Proof.
  intros joined. unfold run. fold joined.
  set (rids := unique (map (fun x => route_id (fst x)) joined)).
  destruct (@traverse_total _ _ (route_feature shapes joined)
              properties_route_id rids) as (features & Hrun & Hids).
  { intros rid Hrid. apply unique_In in Hrid.
    pose proof (shape_ids_of_nonempty joined rid Hrid) as Hne.
    unfold route_feature, route_shape.
    destruct (representative_spec shapes Hne)
      as (longest & -> & _).
    eexists; split; reflexivity. }
  exists features. split; [exact Hrun|]. split; [exact Hids|].
  assert (Hjoined : forall rid, In rid (map properties_route_id features) ->
                      In rid (map (fun x => route_id (fst x)) joined)).
  { intros rid Hrid. rewrite Hids in Hrid. now apply unique_In. }
  split; [|split].
  - intros f Hf. apply shape_ids_of_nonempty. apply Hjoined.
    now apply in_map.
  - intros rid Hempty Hrid.
    now apply (shape_ids_of_empty joined rid Hempty), Hjoined.
  - intros rid Hno Hrid. apply Hjoined in Hrid.
    apply in_map_iff in Hrid as (x & <- & Hx).
    apply joined_row_has_trip in Hx as (_ & t & Ht & Hroute & _).
    now apply (Hno t Ht).
Qed.

(** * Further properties of the joins and of the route loop *)

(** ** Rows kept by [drop_duplicates] and [unique] *)

Section KeepFirst.

Context {A : Type} (eqb : A -> A -> bool).

Lemma keep_first_app (a b : list A) :
  forall seen,
    keep_first eqb seen (a ++ b)
    = keep_first eqb seen a
      ++ keep_first eqb (rev (keep_first eqb seen a) ++ seen) b.
Proof.
  induction a as [|x a IH]; intros seen; simpl; [reflexivity|].
  destruct (existsb (eqb x) seen); [apply IH|].
  simpl. rewrite IH. rewrite <- app_assoc. reflexivity.
Qed.

Lemma keep_first_skip (a b : list A) (seen : list A) :
  (forall y, In y a -> existsb (eqb y) seen = true) ->
  keep_first eqb seen (a ++ b) = keep_first eqb seen b.
Proof.
  induction a as [|x a IH]; intros Hcov; simpl; [reflexivity|].
  rewrite (Hcov x (or_introl eq_refl)).
  apply IH. intros y Hy. apply Hcov. now right.
Qed.

Lemma existsb_app_r (f : A -> bool) (l l' : list A) :
  existsb f l' = true -> existsb f (l ++ l') = true.
Proof. intros H. rewrite existsb_app, H. apply orb_true_r. Qed.

Hypothesis eqb_refl : forall x, eqb x x = true.

(** After a list went through, every row of it has been seen. *)
Lemma keep_first_seen (a : list A) :
  forall seen y,
    In y a ->
    existsb (eqb y) (rev (keep_first eqb seen a) ++ seen) = true.
Proof.
  induction a as [|x a IH]; intros seen y Hy; [contradiction|].
  destruct Hy as [<-|Hy]; simpl.
  - destruct (existsb (eqb x) seen) eqn:E.
    + now apply existsb_app_r.
    + simpl. rewrite <- app_assoc. apply existsb_app_r. simpl.
      now rewrite eqb_refl.
  - destruct (existsb (eqb x) seen) eqn:E.
    + now apply IH.
    + simpl. rewrite <- app_assoc. now apply IH.
Qed.

(** Dropping the duplicates of the keys before a join changes nothing
    once the duplicates of the joined rows are dropped. *)
Lemma keep_first_flat_map {T : Type} (teqb : T -> T -> bool)
    (f : T -> list A) :
  (forall x y, teqb x y = true -> x = y) ->
  forall l seenT seen,
    (forall x y, In x seenT -> In y (f x) -> existsb (eqb y) seen = true) ->
    keep_first eqb seen (flat_map f (keep_first teqb seenT l))
    = keep_first eqb seen (flat_map f l).
Proof.
  intros Hteqb. induction l as [|x l IH]; intros seenT seen Hcov; simpl;
    [reflexivity|].
  destruct (existsb (teqb x) seenT) eqn:E.
  - apply existsb_exists in E as (x' & Hx' & Heq).
    apply Hteqb in Heq. subst x'.
    rewrite keep_first_skip by (intros y Hy; now apply (Hcov x)).
    now apply IH.
  - simpl. rewrite !keep_first_app. f_equal.
    apply IH. intros x' y [<-|Hx'] Hy.
    + now apply keep_first_seen.
    + apply existsb_app_r. now apply (Hcov x').
Qed.

End KeepFirst.

Lemma keep_first_In_seen (l : list string) :
  forall seen x, In x l -> In x seen \/ In x (keep_first String.eqb seen l).
Proof.
  induction l as [|y l IH]; intros seen x Hx; [contradiction|]. simpl.
  destruct (existsb (String.eqb y) seen) eqn:E.
  - destruct Hx as [<-|Hx]; [|now apply IH].
    apply existsb_exists in E as (z & Hz & Heq).
    apply String.eqb_eq in Heq. subst z. now left.
  - destruct Hx as [<-|Hx]; [right; now left|].
    destruct (IH (y :: seen) x Hx) as [[<-|H]|H]; auto.
    + right. now left.
    + right. now right.
Qed.

Lemma unique_In_iff (l : list string) (x : string) :
  In x (unique l) <-> In x l.
Proof.
  split; [apply unique_In|].
  intros Hx. destruct (keep_first_In_seen l [] x Hx) as [[]|H]. exact H.
Qed.

Lemma keep_first_NoDup (l : list string) :
  forall seen,
    NoDup (keep_first String.eqb seen l)
    /\ forall x, In x (keep_first String.eqb seen l) -> ~ In x seen.
Proof.
  induction l as [|y l IH]; intros seen; simpl.
  - split; [constructor|intros x []].
  - destruct (existsb (String.eqb y) seen) eqn:E; [apply IH|].
    destruct (IH (y :: seen)) as [Hnd Hseen].
    assert (Hy : ~ In y seen).
    { intros Hy. apply Bool.not_true_iff_false in E. apply E.
      apply existsb_exists. exists y. split; [exact Hy|].
      apply String.eqb_refl. }
    split.
    + constructor; [|exact Hnd].
      intros Hin. apply (Hseen y Hin). now left.
    + intros x [<-|Hx]; [exact Hy|].
      intros Hs. apply (Hseen x Hx). now right.
Qed.

Lemma unique_NoDup (l : list string) : NoDup (unique l).
Proof. apply keep_first_NoDup. Qed.

(** Dropping duplicate rows first does not change the distinct values of
    a column, nor those of a selection of the rows by another column. *)
Lemma unique_after_drop_duplicates {A : Type} (eqb : A -> A -> bool)
    (g : A -> string) (p : A -> bool) :
  (forall x y, eqb x y = true -> g x = g y /\ p x = p y) ->
  forall l seenB seenS,
    (forall b, In b seenB -> p b = true -> In (g b) seenS) ->
    keep_first String.eqb seenS (map g (filter p (keep_first eqb seenB l)))
    = keep_first String.eqb seenS (map g (filter p l)).
Proof.
  intros Heqb. induction l as [|x l IH]; intros seenB seenS Hinv; simpl;
    [reflexivity|].
  destruct (existsb (eqb x) seenB) eqn:E.
  - apply existsb_exists in E as (b & Hb & Heq).
    destruct (Heqb _ _ Heq) as [Hg Hp].
    rewrite IH by exact Hinv.
    destruct (p x) eqn:Ex; [|reflexivity]. simpl.
    assert (Hs : existsb (String.eqb (g x)) seenS = true).
    { apply existsb_exists. exists (g x). split; [|apply String.eqb_refl].
      rewrite Hg. apply Hinv; congruence. }
    now rewrite Hs.
  - simpl. destruct (p x) eqn:Ex; simpl.
    + destruct (existsb (String.eqb (g x)) seenS) eqn:Es.
      * apply IH. intros b [<-|Hb] Hpb; [|now apply Hinv].
        apply existsb_exists in Es as (z & Hz & Heq).
        apply String.eqb_eq in Heq. now subst z.
      * f_equal. apply IH. intros b [<-|Hb] Hpb; [now left|].
        right. now apply Hinv.
    + apply IH. intros b [<-|Hb] Hpb; [congruence|now apply Hinv].
Qed.

Lemma filter_all {A : Type} (l : list A) : filter (fun _ => true) l = l.
Proof. induction l as [|x l IH]; simpl; congruence. Qed.

Lemma traverse_ext {A B : Type} (f g : A -> option B) (l : list A) :
  (forall x, f x = g x) -> traverse f l = traverse g l.
Proof.
  intros H. induction l as [|x l IH]; simpl; [reflexivity|].
  now rewrite H, IH.
Qed.

(** ** The joined table *)

Lemma trip_eqb_eq (t u : TripRow) : trip_eqb t u = true -> t = u.
Proof.
  destruct t, u. unfold trip_eqb; simpl. intros H.
  apply andb_true_iff in H as [H1 H2].
  apply String.eqb_eq in H1, H2. congruence.
Qed.

Lemma joined_eqb_refl (x : JoinedRow) : joined_eqb x x = true.
Proof.
  unfold joined_eqb, route_eqb, shape_eqb, sequence_eqb.
  rewrite !String.eqb_refl, !Qeq_bool_refl. simpl.
  destruct (shape_pt_sequence (snd x)); [apply Z.eqb_refl|reflexivity].
Qed.

Lemma joined_eqb_ids (x y : JoinedRow) :
  joined_eqb x y = true ->
  route_id (fst x) = route_id (fst y) /\ shape_id (snd x) = shape_id (snd y).
Proof.
  unfold joined_eqb, route_eqb, shape_eqb. intros H.
  repeat match goal with
         | H : _ && _ = true |- _ => apply andb_true_iff in H as [H ?]
         end.
  split; apply String.eqb_eq; assumption.
Qed.

Lemma flat_map_nested {A B C : Type} (f : A -> list B) (g : B -> list C)
    (l : list A) :
  flat_map g (flat_map f l) = flat_map (fun x => flat_map g (f x)) l.
Proof.
  induction l as [|x l IH]; simpl; [reflexivity|].
  now rewrite flat_map_app, IH.
Qed.

Lemma merge_by_trip (routes : list RouteRow) (trips : list TripRow)
    (shapes : list ShapeRow) :
  merge_shapes (merge_routes_trips routes trips) shapes
  = flat_map (fun r => flat_map (join_trip shapes r) trips) routes.
Proof.
  unfold merge_shapes, merge_routes_trips.
  rewrite flat_map_nested. apply flat_map_ext. intros r.
  induction trips as [|t trips IH]; [reflexivity|].
  cbn [filter flat_map]. unfold join_trip at 1.
  destruct (String.eqb (trip_route_id t) (route_id r)).
  - cbn [map flat_map fst snd]. now rewrite IH.
  - exact IH.
Qed.

(** Over the rows made trip by trip, the duplicates of a trip only add
    rows that are dropped later. *)
Lemma keep_first_join_trips (routes : list RouteRow) (trips : list TripRow)
    (shapes : list ShapeRow) :
  forall seen,
    keep_first joined_eqb seen
      (flat_map (fun r => flat_map (join_trip shapes r)
                            (keep_first trip_eqb [] trips)) routes)
    = keep_first joined_eqb seen
        (flat_map (fun r => flat_map (join_trip shapes r) trips) routes).
Proof.
  induction routes as [|r routes IH]; intros seen; simpl; [reflexivity|].
  rewrite !keep_first_app.
  rewrite (@keep_first_flat_map _ joined_eqb joined_eqb_refl _ trip_eqb
             (join_trip shapes r) trip_eqb_eq trips [] seen)
    by (intros x y []).
  f_equal. apply IH.
Qed.

Lemma routes_trips_shapes_raw (routes : list RouteRow)
    (trips : list TripRow) (shapes : list ShapeRow) :
  keep_first joined_eqb []
    (merge_shapes (merge_routes_trips routes (keep_first trip_eqb [] trips))
                  shapes)
  = keep_first joined_eqb []
      (merge_shapes (merge_routes_trips routes trips) shapes).
Proof. rewrite !merge_by_trip. apply keep_first_join_trips. Qed.

Lemma joined_route_ids (routes : list RouteRow) (trips : list TripRow)
    (shapes : list ShapeRow) :
  unique (map (fun x => route_id (fst x))
              (routes_trips_shapes routes trips shapes))
  = unique (map (fun x => route_id (fst x))
                (merge_shapes (merge_routes_trips routes trips) shapes)).
Proof.
  unfold routes_trips_shapes, drop_duplicates.
  rewrite routes_trips_shapes_raw.
  set (raw := merge_shapes (merge_routes_trips routes trips) shapes).
  unfold unique.
  rewrite <- (filter_all (keep_first joined_eqb [] raw)).
  rewrite <- (filter_all raw) at 2.
  apply unique_after_drop_duplicates.
  - intros x y H. split; [apply (joined_eqb_ids _ _ H)|reflexivity].
  - intros b [].
Qed.

Lemma joined_shape_ids (routes : list RouteRow) (trips : list TripRow)
    (shapes : list ShapeRow) (rid : RouteId) :
  shape_ids_of (routes_trips_shapes routes trips shapes) rid
  = shape_ids_of (merge_shapes (merge_routes_trips routes trips) shapes) rid.
Proof.
  unfold routes_trips_shapes, drop_duplicates.
  rewrite routes_trips_shapes_raw.
  unfold shape_ids_of, unique.
  apply unique_after_drop_duplicates.
  - intros x y H. destruct (joined_eqb_ids _ _ H) as [H1 H2].
    split; [exact H2|now rewrite H1].
  - intros b [].
Qed.

(** X1. The two [drop_duplicates] (lines 40 and 52) do not change what the
    script writes: the route loop over the plain double join gives the
    same features, in the same order. *)
Theorem drop_duplicates_redundant {shapely : Shapely}
    (routes : list RouteRow) (trips : list TripRow)
    (shapes : list ShapeRow) :
  run routes trips shapes
  = route_loop shapes (merge_shapes (merge_routes_trips routes trips) shapes).
Proof.
  unfold run, route_loop. rewrite joined_route_ids.
  apply traverse_ext. intros rid. unfold route_feature.
  now rewrite joined_shape_ids.
Qed.

(** The rows of the plain double join. *)
Lemma raw_join_In (routes : list RouteRow) (trips : list TripRow)
    (shapes : list ShapeRow) (x : JoinedRow) :
  In x (merge_shapes (merge_routes_trips routes trips) shapes)
  <-> In (fst x) routes /\ In (snd x) shapes
      /\ exists t, In t trips
                   /\ trip_route_id t = route_id (fst x)
                   /\ trip_shape_id t = shape_id (snd x).
Proof.
  rewrite merge_by_trip. split.
  - intros Hx. apply in_flat_map in Hx as (r & Hr & Hx).
    apply in_flat_map in Hx as (t & Ht & Hx).
    unfold join_trip in Hx.
    destruct (String.eqb (trip_route_id t) (route_id r)) eqn:E;
      [|contradiction].
    apply String.eqb_eq in E.
    apply in_map_iff in Hx as (s & <- & Hs).
    apply filter_In in Hs as [Hs Heq]. apply String.eqb_eq in Heq.
    simpl. split; [exact Hr|]. split; [exact Hs|]. exists t. auto.
  - intros (Hr & Hs & t & Ht & Hroute & Hshape).
    apply in_flat_map. exists (fst x). split; [exact Hr|].
    apply in_flat_map. exists t. split; [exact Ht|].
    unfold join_trip. rewrite Hroute, String.eqb_refl.
    apply in_map_iff. exists (snd x). split; [now destruct x|].
    apply filter_In. split; [exact Hs|].
    rewrite Hshape. apply String.eqb_refl.
Qed.

Lemma joined_route_id_linked (routes : list RouteRow) (trips : list TripRow)
    (shapes : list ShapeRow) (rid : RouteId) :
  In rid (unique (map (fun x => route_id (fst x))
                      (routes_trips_shapes routes trips shapes)))
  <-> exists sid, linked routes trips shapes rid sid.
Proof.
  rewrite joined_route_ids, unique_In_iff, in_map_iff. split.
  - intros (x & <- & Hx).
    apply raw_join_In in Hx as (Hr & Hs & t & Ht & Hroute & Hshape).
    exists (shape_id (snd x)), (fst x), t, (snd x). auto 10.
  - intros (sid & r & t & s & Hr & Ht & Hs & Hrid & Htr & Hts & Hsid).
    exists (r, s). split; [exact Hrid|].
    apply raw_join_In. simpl. split; [exact Hr|]. split; [exact Hs|].
    exists t. split; [exact Ht|]. split; congruence.
Qed.

Lemma run_route_ids {shapely : Shapely} (routes : list RouteRow)
    (trips : list TripRow) (shapes : list ShapeRow) :
  exists features,
    run routes trips shapes = Some features
    /\ map properties_route_id features
       = unique (map (fun x => route_id (fst x))
                     (routes_trips_shapes routes trips shapes)).
Proof.
  unfold run.
  set (joined := routes_trips_shapes routes trips shapes).
  apply traverse_total.
  intros rid Hrid. apply unique_In in Hrid.
  pose proof (shape_ids_of_nonempty joined rid Hrid) as Hne.
  unfold route_feature, route_shape.
  destruct (representative_spec shapes Hne) as (longest & -> & _).
  eexists; split; reflexivity.
Qed.

(** X2. The run writes a feature for a route id exactly when the routes
    table lists it and one of its trips has a shape with a point in the
    shapes table. *)
Theorem feature_iff_linked {shapely : Shapely} (routes : list RouteRow)
    (trips : list TripRow) (shapes : list ShapeRow) :
  exists features,
    run routes trips shapes = Some features
    /\ forall rid,
         In rid (map properties_route_id features)
         <-> exists sid, linked routes trips shapes rid sid.
Proof.
  destruct (run_route_ids routes trips shapes) as (features & Hrun & Hids).
  exists features. split; [exact Hrun|].
  intros rid. rewrite Hids. apply joined_route_id_linked.
Qed.

(** X3. No route id gets two features, however often the routes table
    lists it, and the run writes at most as many features as the routes
    table has rows. *)
Theorem one_feature_per_route {shapely : Shapely} (routes : list RouteRow)
    (trips : list TripRow) (shapes : list ShapeRow) :
  exists features,
    run routes trips shapes = Some features
    /\ NoDup (map properties_route_id features)
    /\ List.length features <= List.length routes.
Proof.
  destruct (run_route_ids routes trips shapes) as (features & Hrun & Hids).
  exists features. split; [exact Hrun|].
  assert (Hnd : NoDup (map properties_route_id features))
    by (rewrite Hids; apply unique_NoDup).
  split; [exact Hnd|].
  rewrite <- (length_map properties_route_id features).
  rewrite <- (length_map route_id routes).
  apply NoDup_incl_length; [exact Hnd|].
  intros rid Hrid. rewrite Hids in Hrid.
  apply joined_route_id_linked in Hrid
    as (sid & r & t & s & Hr & _ & _ & <- & _).
  now apply in_map.
Qed.

(** ** The selection and the loop over the other shapes *)

Lemma select_fold_grows (cnt : ShapeId -> nat) (ids : list ShapeId) :
  forall st : ShapeId * nat,
    let r := fold_left (select_step cnt) ids st in
    r = st \/ snd st < snd r.
Proof.
  induction ids as [|id ids IH]; intros st; simpl; [now left|].
  destruct (IH (select_step cnt st id)) as [H|H];
    unfold select_step in *; destruct (snd st <? cnt id) eqn:E.
  - right. rewrite H. simpl. now apply Nat.ltb_lt.
  - left. exact H.
  - right. apply Nat.ltb_lt in E. simpl in H. lia.
  - right. exact H.
Qed.

(** X4. Ties go to the shape met first: the popped shape stays the longest
    unless a shape of the set has strictly more counted points. *)
Theorem popped_shape_kept_on_ties (shapes : list ShapeRow)
    (ids : list ShapeId) (first : ShapeId) :
  let longest := select_longest (pt_count shapes) first ids in
  (longest = first \/ pt_count shapes first < pt_count shapes longest)
  /\ ((forall id, In id ids -> pt_count shapes id <= pt_count shapes first) ->
      longest = first).
Proof.
  intros longest. unfold longest, select_longest.
  set (cnt := pt_count shapes).
  destruct (select_fold_spec cnt ids (first, cnt first) eq_refl)
    as (H1 & H2 & _ & _).
  destruct (select_fold_grows cnt ids (first, cnt first)) as [H|H].
  - rewrite H. simpl. split; [now left|reflexivity].
  - simpl in H. rewrite H1 in H. split; [now right|].
    intros Hmax. destruct H2 as [H2|H2]; [exact H2|].
    specialize (Hmax _ H2). lia.
Qed.

Lemma fold_reduce_all_within {shapely : Shapely} (shapes : list ShapeRow)
    (ids : list ShapeId) (st : Geometry * Region) :
  (forall id, In id ids ->
     within (LineString (coords shapes id)) (snd st) = true) ->
  fold_left (reduce_step shapes) ids st = st.
Proof.
  induction ids as [|id ids IH]; intros Hall; simpl; [reflexivity|].
  rewrite reduce_step_within by (apply Hall; now left).
  apply IH. intros id' Hid'. apply Hall. now right.
Qed.

(** X5. When every other shape of a route is within the buffer of the
    longest one, the geometry of the route is the simplified line of the
    longest shape alone. *)
Theorem covered_route_is_longest_line {shapely : Shapely}
    (shapes : list ShapeRow) (shape_ids : list ShapeId) (longest : ShapeId) :
  representative shapes shape_ids = Some longest ->
  (forall id, In id shape_ids -> id <> longest ->
     within (LineString (coords shapes id))
            (buffer (LineString (coords shapes longest)) buffer_radius)
     = true) ->
  route_shape shapes shape_ids
  = Some (simplify (LineString (coords shapes longest)) tolerance).
Proof.
  intros Hrep Hall. unfold route_shape. rewrite Hrep.
  unfold overlap_reduce. rewrite fold_reduce_all_within; [reflexivity|].
  intros id Hid. apply in_remove in Hid as [Hid Hne].
  now apply Hall.
Qed.

Lemma covered_route_is_longest_line_witness :
  route_shape (shapely := Meridian.shapely) Examples.nested_shapes ["B"; "A"]
  = Some (simplify (LineString (coords Examples.nested_shapes "A")) tolerance).
Proof.
  apply (@covered_route_is_longest_line Meridian.shapely
           Examples.nested_shapes ["B"; "A"] "A").
  - vm_compute. reflexivity.
  - intros id [<-|[<-|[]]] Hne.
    + vm_compute. reflexivity.
    + now elim Hne.
Defined.
